(** * Firestore read helpers of the ceremony dashboard

    A shallow embedding of the read/aggregation helpers of the dashboard
    (collection reads, the document mapper, the ordered circuit fetcher, the
    avatar aggregator and the contribution reader), followed by the
    properties the specification states about them.

    Conventions of the embedding:
    - a promise is a value of [Async A]: the list of requests sent to the
      document store while the computation ran, and how the promise settled
      (fulfilled with a value or rejected with an error);
    - the Firestore instance is an explicit argument [db] instead of the
      module-level variable [firestoreDatabase];
    - a document payload ([DocumentData]) keeps the two fields the helpers
      read, each optional: an absent field reads as [None], which is what
      JavaScript's [undefined] is here;
    - [sequencePosition] is an integer, as in the data model; the only
      non-number that the comparator of [getCeremonyCircuits] can then
      produce is [NaN], for an absent position. *)

From Stdlib Require Import ZArith Sorting.Sorted Ascii.
From stdpp Require Import base numbers list strings pretty.
From Equations Require Import Equations.

Local Open Scope string_scope.
Local Open Scope list_scope.
Local Open Scope nat_scope.

(** ** Documents *)

Definition Error := string.

Record DocumentData := mkDocumentData {
  sequencePosition : option Z;
  avatarUrl : option string
}.

(** A [QueryDocumentSnapshot]: [document.id], [document.ref],
    [document.exists()] and [document.data()]. The reference is opaque to
    the helpers; it is kept as the path of the document. *)
Record QueryDocumentSnapshot := mkSnapshot {
  doc_id : string;
  doc_ref : string;
  doc_exists : bool;
  doc_data : DocumentData
}.

(** The object literal [{ id, ref, data }] built by the document mapper. *)
Record FirebaseDocumentInfo := mkInfo {
  info_id : string;
  info_ref : string;
  info_data : DocumentData
}.

(** The object literal [{ uid, data }] built by [getContributions]. *)
Record ContributionInfo := mkContribution {
  uid : string;
  contribution_data : DocumentData
}.

(** ** Promises and the document store *)

Inductive StoreCall :=
| GetDocsCollection (path : string)
| GetDocsWhereIn (collectionName field : string) (values : list string).

Inductive Settled (A : Type) :=
| Fulfilled (a : A)
| Rejected (e : Error).
Arguments Fulfilled {A} a.
Arguments Rejected {A} e.

Definition Async (A : Type) : Type := list StoreCall * Settled A.

Definition resolve {A} (a : A) : Async A := ([], Fulfilled a).

(** [await m] followed by the rest of an async function: a rejection of [m]
    is re-thrown, and the requests of the continuation come after those of
    [m]. *)
Definition await {A B} (m : Async A) (k : A → Async B) : Async B :=
  match m.2 with
  | Fulfilled a => (m.1 ++ (k a).1, (k a).2)
  | Rejected e => (m.1, Rejected e)
  end.

Notation "'const' x := 'await' m ; k" := (await m (λ x, k))
  (at level 10, x name, m at level 100, k at level 200,
   format "'[v' 'const'  x  :=  'await'  m ; '/' k ']'").

Definition trace {A} (m : Async A) : list StoreCall := m.1.
Definition outcome {A} (m : Async A) : Settled A := m.2.

(** What the store answers to the two kinds of read the helpers send:
    [getDocs(collectionRef(db, path))] and
    [getDocs(query(collection(db, name), where(field, 'in', values)))]. *)
Record Firestore := mkFirestore {
  getDocs_collection : string → Settled (list QueryDocumentSnapshot);
  getDocs_where_in : string → string → list string → Settled (list QueryDocumentSnapshot)
}.

(** [getDocs(query(collection(db, name), where(field, 'in', values)))]. *)
Definition getDocs_query (db : Firestore) (collectionName field : string)
    (values : list string) : Async (list QueryDocumentSnapshot) :=
  ([GetDocsWhereIn collectionName field values],
   getDocs_where_in db collectionName field values).

(** ** Collection reader and document mapper *)

Definition getCircuitsCollectionPath (ceremonyId : string) : string :=
  "ceremonies/" +:+ ceremonyId +:+ "/circuits".

Definition getAllCollectionDocs (db : Firestore) (collection : string)
  : Async (list QueryDocumentSnapshot) :=
  ([GetDocsCollection collection], getDocs_collection db collection).

Definition fromQueryToFirebaseDocumentInfo (queryDocSnap : list QueryDocumentSnapshot)
  : list FirebaseDocumentInfo :=
  map (λ document,
         {| info_id := doc_id document;
            info_ref := doc_ref document;
            info_data := doc_data document |}) queryDocSnap.

(** ** Array.prototype.sort with a comparator *)

(** A JavaScript number restricted to what the comparator can yield:
    an integer, or [NaN] ([None]). *)
Definition JsNumber := option Z.

(** [a - b] on two field reads: an absent field is [undefined], whose
    numeric value is [NaN]. *)
Definition js_sub (a b : option Z) : JsNumber :=
  match a, b with
  | Some x, Some y => Some (x - y)%Z
  | _, _ => None
  end.

(** The comparison [sort] makes of two elements: the comparator's result
    with [NaN] read as [+0]; [true] when it is positive, that is when the
    first element has to come after the second. *)
Definition sortsAfter {A} (comparefn : A → A → JsNumber) (x y : A) : bool :=
  match comparefn x y with
  | Some v => (0 <? v)%Z
  | None => false
  end.

(** [sort] is stable; the reference algorithm is insertion sort, each
    element going in front of the first one it does not sort after. *)
Fixpoint sort_insert {A} (comparefn : A → A → JsNumber) (x : A) (sorted : list A) : list A :=
  match sorted with
  | [] => [x]
  | y :: rest =>
      if sortsAfter comparefn x y then y :: sort_insert comparefn x rest
      else x :: y :: rest
  end.

Definition array_sort {A} (comparefn : A → A → JsNumber) (arr : list A) : list A :=
  foldr (sort_insert comparefn) [] arr.

(** Two elements both carry a number under [key], the first the smaller. *)
Definition keyLt {A} (key : A → option Z) (a b : A) : Prop :=
  ∃ p q : Z, key a = Some p ∧ key b = Some q ∧ (p < q)%Z.

(** Two elements both carry a number under [key], the first not the larger. *)
Definition keyLe {A} (key : A → option Z) (a b : A) : Prop :=
  ∃ p q : Z, key a = Some p ∧ key b = Some q ∧ (p ≤ q)%Z.

(** The elements whose key is [k]. *)
Definition withKey {A} (key : A → option Z) (k : option Z) (l : list A) : list A :=
  List.filter (λ a, bool_decide (key a = k)) l.

(** ** Ordered circuit fetcher *)

(** The field read [circuit.data.sequencePosition]. *)
Definition positionOf (circuit : FirebaseDocumentInfo) : option Z :=
  sequencePosition (info_data circuit).

Definition bySequencePosition (a b : FirebaseDocumentInfo) : JsNumber :=
  js_sub (sequencePosition (info_data a)) (sequencePosition (info_data b)).

Definition getCeremonyCircuits (db : Firestore) (ceremonyId : string)
  : Async (list FirebaseDocumentInfo) :=
  const docs := await getAllCollectionDocs db (getCircuitsCollectionPath ceremonyId);
  resolve (array_sort bySequencePosition (fromQueryToFirebaseDocumentInfo docs)).

(** ** Contribution reader *)

Definition getContributions (db : Firestore) (ceremonyId circuitId : string)
  : Async (list ContributionInfo) :=
  const contributionsDocs := await getAllCollectionDocs db
    ("ceremonies/" +:+ ceremonyId +:+ "/circuits/" +:+ circuitId +:+ "/contributions");
  resolve (map (λ document, {| uid := doc_id document;
                               contribution_data := doc_data document |})
               contributionsDocs).

(** ** Chunking of the participant identifiers *)

(** [arr.splice(0, deleteCount)]: the removed elements, and the array that
    is left. *)
Definition splice0 {A} (deleteCount : nat) (arr : list A) : list A * list A :=
  (take deleteCount arr, drop deleteCount arr).

(** The loop [while (participantIds.length) chunks.push(participantIds.splice(0, 10))]. *)
Equations chunkLoop {A} (participantIds : list A) (chunks : list (list A))
  : list (list A) by wf (length participantIds) lt :=
chunkLoop [] chunks := chunks;
chunkLoop (x :: xs) chunks :=
  chunkLoop (splice0 10 (x :: xs)).2 (chunks ++ [(splice0 10 (x :: xs)).1]).
Next Obligation. simpl. rewrite length_drop. lia. Qed.


(** ** Fan-out executor *)

(** What a settled promise holds. *)
Definition fulfilled {A} (s : Settled A) : option A :=
  match s with Fulfilled a => Some a | Rejected _ => None end.

Definition rejection {A} (s : Settled A) : option Error :=
  match s with Fulfilled _ => None | Rejected e => Some e end.

Definition isRejected {A} (s : Settled A) : bool :=
  match s with Fulfilled _ => false | Rejected _ => true end.

(** Modelled from the spec: the value [processItems] returns, of which the
    caller reads [results]; the source of [processItems] ([./utils]) is not
    part of the files at hand. A pair of the outputs of the batches that
    succeeded and of the failures of the batches that failed. *)
Record FanOut (R : Type) := mkFanOut {
  results : list R;
  errors : list Error
}.
Arguments mkFanOut {R} results errors.
Arguments results {R} f.
Arguments errors {R} f.

(** Modelled from the spec: the order in which the batches of
    [processItems] (not among the sources) settle. The batches are
    dispatched in the order of the list and settle in an order of their own:
    [completion] lists the positions of the dispatched operations in the
    order in which they settle. *)
Definition settleOrder {A} (dispatched : list A) (completion : list nat) : list A :=
  omap (λ i, dispatched !! i) completion.

(** Modelled from the spec: the accumulators of [processItems] (not among
    the sources). One settled batch reaches them: its output is pushed on
    [results], or its failure on [errors]. *)
Definition record {R} (acc : FanOut R) (s : Settled R) : FanOut R :=
  match s with
  | Fulfilled r => {| results := results acc ++ [r]; errors := errors acc |}
  | Rejected e => {| results := results acc; errors := errors acc ++ [e] |}
  end.

(** Modelled from the spec: collect-all mode of [processItems] (not among
    the sources), over the batches in the order they settle. *)
Definition collectAll {R} (settled : list (Settled R)) : FanOut R :=
  foldl record {| results := []; errors := [] |} settled.

(** Modelled from the spec: fail-fast mode of [processItems] (not among the
    sources): the first failure to settle. *)
Fixpoint firstRejection {R} (settled : list (Settled R)) : option Error :=
  match settled with
  | [] => None
  | Fulfilled _ :: rest => firstRejection rest
  | Rejected e :: _ => Some e
  end.

(** Modelled from the spec: [processItems], imported from [./utils], whose
    source is not part of the files at hand. Following the description of the
    fan-out executor: every batch is handed to [process] at once, so all
    requests are sent, in dispatch order; in collect-all mode (the flag
    [false] of the one caller) the failure of a batch is recorded in
    [errors] and the output of a succeeding batch in [results], one entry
    per batch, in the order in which the batches settle; in fail-fast mode
    the first failure to settle rejects the whole call. The caller flattens
    [results] itself. *)
Definition processItems {T R} (completion : list nat)
    (items : list T) (process : T → Async R) (failFast : bool) : Async (FanOut R) :=
  let dispatched := map process items in
  let settled := settleOrder (map outcome dispatched) completion in
  (concat (map trace dispatched),
   if failFast then
     match firstRejection settled with
     | Some e => Rejected e
     | None => Fulfilled (collectAll settled)
     end
   else Fulfilled (collectAll settled)).

(** ** Avatar aggregator *)

Definition fetchAvatarsForChunk (db : Firestore) (chunk : list string)
  : Async (list (option string)) :=
  const avatarDocs := await getDocs_query db "avatars" "__name__" chunk;
  resolve (map (λ doc, avatarUrl (doc_data doc))
               (List.filter (λ doc, doc_exists doc) avatarDocs)).

Definition getParticipantsAvatar (db : Firestore) (completion : list nat)
    (ceremonyId : string) : Async (list (option string)) :=
  const participantsDocs := await getAllCollectionDocs db
    ("ceremonies/" +:+ ceremonyId +:+ "/participants");
  let participantsData := fromQueryToFirebaseDocumentInfo participantsDocs in
  let participantIds := map (λ participant, info_id participant) participantsData in
  let chunks := chunkLoop participantIds [] in
  const fanOut := await processItems completion chunks (fetchAvatarsForChunk db) false;
  let avatarURLs := concat (results fanOut) in
  resolve avatarURLs.

(** ** Sample stores *)

(** A store held in memory: the collections by path; a membership query on
    the document name answers with the documents of the collection whose
    identifier is among the values, unless [failing] rejects the values. *)
Definition collectionAt (content : list (string * list QueryDocumentSnapshot))
    (path : string) : list QueryDocumentSnapshot :=
  match list_find (λ entry, entry.1 = path) content with
  | Some (_, (_, docs)) => docs
  | None => []
  end.

Definition memoryStore (content : list (string * list QueryDocumentSnapshot))
    (failing : list string → bool) : Firestore :=
  {| getDocs_collection path := Fulfilled (collectionAt content path);
     getDocs_where_in collectionName field values :=
       if failing values then Rejected "unavailable"
       else Fulfilled (List.filter (λ doc, bool_decide (doc_id doc ∈ values))
                                   (collectionAt content collectionName)) |}.

Definition circuitDoc (name : string) (position : option Z) : QueryDocumentSnapshot :=
  {| doc_id := name; doc_ref := "ceremonies/c1/circuits/" +:+ name;
     doc_exists := true;
     doc_data := {| sequencePosition := position; avatarUrl := None |} |}.

Definition circuitsStore (circuits : list QueryDocumentSnapshot) : Firestore :=
  memoryStore [("ceremonies/c1/circuits", circuits)] (λ _, false).

Definition contributionsStore : Firestore :=
  memoryStore
    [("ceremonies/c1/circuits/k1/contributions",
      [circuitDoc "z" None; circuitDoc "a" (Some 4%Z)])] (λ _, false).

Definition participantDoc (n : nat) : QueryDocumentSnapshot :=
  {| doc_id := "p" +:+ pretty n;
     doc_ref := "ceremonies/c1/participants/p" +:+ pretty n;
     doc_exists := true;
     doc_data := {| sequencePosition := None; avatarUrl := None |} |}.

Definition avatarDoc (n : nat) (url : option string) : QueryDocumentSnapshot :=
  {| doc_id := "p" +:+ pretty n; doc_ref := "avatars/p" +:+ pretty n;
     doc_exists := true;
     doc_data := {| sequencePosition := None; avatarUrl := url |} |}.

(** A ceremony [c1] with [n] participants [p0], [p1], ...; avatars for
    [p1] (without URL field), [p12] and [p24]; the membership queries that
    [failing] picks are rejected. *)
Definition sampleAvatars : list QueryDocumentSnapshot :=
  [avatarDoc 24 (Some "https://avatars/24"); avatarDoc 1 None;
   avatarDoc 12 (Some "https://avatars/12")].

Definition avatarStore (n : nat) (failing : list string → bool) : Firestore :=
  memoryStore
    [("ceremonies/c1/participants", map participantDoc (seq 0 n));
     ("avatars", sampleAvatars)]
    failing.

Definition reachable (values : list string) : bool := false.

Definition withoutP3 (values : list string) : bool := bool_decide ("p3" ∈ values).

(** ** View state *)

(** The aggregate of [StateContext.tsx]: the ceremony as the object literal
    [{ uid, data }], and the optional lists, absent ([None]) when the
    property is not set. *)
Record Project := mkProject {
  ceremony : ContributionInfo;
  project_circuits : option (list ContributionInfo);
  project_participants : option (list ContributionInfo);
  project_contributions : option (list ContributionInfo)
}.

(** The values of the three [useState] hooks of [useInitialStateContext]. *)
Record State := mkState {
  projects : list Project;
  search : string;
  loading : bool
}.

Definition initialState : State :=
  {| projects := []; search := ""; loading := false |}.

Definition setProjects (projects' : list Project) (st : State) : State :=
  {| projects := projects'; search := search st; loading := loading st |}.

(** [fetchData] of the effect of [useInitialStateContext]. The read of the
    [ceremonies] collection is made by helpers imported from another file;
    its promise is the argument [ceremoniesDocs]. *)
Definition fetchData (ceremoniesDocs : Async (list QueryDocumentSnapshot))
    (st : State) : Async State :=
  const docs := await ceremoniesDocs;
  let ceremonies :=
    map (λ document, {| uid := doc_id document;
                        contribution_data := doc_data document |}) docs in
  let projects :=
    map (λ ceremony, {| ceremony := ceremony; project_circuits := None;
                        project_participants := None;
                        project_contributions := None |}) ceremonies in
  resolve (setProjects projects st).

(** A store that rejects every request. *)
Definition offlineStore (e : Error) : Firestore :=
  {| getDocs_collection _ := Rejected e;
     getDocs_where_in _ _ _ := Rejected e |}.

(** * Properties *)

(** ** The chunking loop *)

Section Chunking.
Context {A : Type}.
Implicit Types (x : A) (ids xs : list A) (chunks : list (list A)).

Lemma chunkLoop_step x xs chunks :
  chunkLoop (x :: xs) chunks
  = chunkLoop (drop 10 (x :: xs)) (chunks ++ [take 10 (x :: xs)]).
Proof. by simp chunkLoop. Qed.

Lemma chunkLoop_push ids chunks :
  chunkLoop ids chunks = chunks ++ chunkLoop ids [].
Proof.
  remember (length ids) as n eqn:Hn. revert ids Hn chunks.
  induction n as [n IH] using lt_wf_ind. intros [|x xs] Hn chunks.
  - simp chunkLoop. by rewrite app_nil_r.
  - rewrite !chunkLoop_step.
    assert (Hlt : length (drop 10 (x :: xs)) < n)
      by (rewrite length_drop, Hn; simpl; lia).
    rewrite (IH _ Hlt _ eq_refl (chunks ++ _)).
    rewrite (IH _ Hlt _ eq_refl ([] ++ _)).
    by rewrite app_nil_l, <- app_assoc.
Qed.

Lemma chunkLoop_cons x xs :
  chunkLoop (x :: xs) []
  = take 10 (x :: xs) :: chunkLoop (drop 10 (x :: xs)) [].
Proof. rewrite chunkLoop_step. by rewrite chunkLoop_push. Qed.

(** Induction along the iterations of the loop. *)
Lemma chunkLoop_iter_ind (P : list A → list (list A) → Prop) :
  P [] [] →
  (∀ x xs, P (drop 10 (x :: xs)) (chunkLoop (drop 10 (x :: xs)) []) →
           P (x :: xs) (take 10 (x :: xs) :: chunkLoop (drop 10 (x :: xs)) [])) →
  ∀ ids, P ids (chunkLoop ids []).
Proof.
  intros Hnil Hstep ids.
  remember (length ids) as n eqn:Hn. revert ids Hn.
  induction n as [n IH] using lt_wf_ind. intros [|x xs] Hn.
  - by simp chunkLoop.
  - rewrite chunkLoop_cons. apply Hstep, (IH (length (drop 10 (x :: xs)))).
    + rewrite length_drop, Hn. simpl. lia.
    + done.
Qed.

Lemma chunkLoop_concat ids : concat (chunkLoop ids []) = ids.
Proof.
  apply (chunkLoop_iter_ind (λ ids chunks, concat chunks = ids)); [done|].
  intros x xs IH. rewrite concat_cons, IH. apply take_drop.
Qed.

Lemma chunkLoop_sizes ids :
  Forall (λ chunk, 0 < length chunk ≤ 10) (chunkLoop ids []).
Proof.
  apply (chunkLoop_iter_ind (λ _ chunks, Forall (λ c, 0 < length c ≤ 10) chunks)).
  - constructor.
  - intros x xs IH. constructor; [|done].
    rewrite length_take. cbn [length]. lia.
Qed.

Lemma chunkLoop_length ids :
  length (chunkLoop ids []) = (length ids + 9) / 10.
Proof.
  apply (chunkLoop_iter_ind (λ ids chunks, length chunks = (length ids + 9) / 10)).
  - done.
  - intros x xs IH. cbn [length]. rewrite IH, length_drop.
    cbn [length]. generalize (length xs) as m. intros m.
    pose proof (Nat.div_mod_eq (S m - 10 + 9) 10).
    pose proof (Nat.mod_upper_bound (S m - 10 + 9) 10).
    pose proof (Nat.div_mod_eq (S m + 9) 10).
    pose proof (Nat.mod_upper_bound (S m + 9) 10).
    lia.
Qed.

Lemma chunkLoop_lookup ids i :
  i < length (chunkLoop ids []) →
  chunkLoop ids [] !! i = Some (take 10 (drop (10 * i) ids)).
Proof.
  revert i.
  apply (chunkLoop_iter_ind (λ ids chunks,
    ∀ i, i < length chunks → chunks !! i = Some (take 10 (drop (10 * i) ids)))).
  - simpl. lia.
  - intros x xs IH [|i] Hi.
    + done.
    + cbn [length] in Hi. cbn [lookup list_lookup].
      rewrite IH by lia. rewrite drop_drop.
      by replace (10 + 10 * i) with (10 * S i) by lia.
Qed.

(** C1. The loop of [getParticipantsAvatar] cuts a list of [N] identifiers
    into [ceil(N/10)] chunks (the least number of tens that covers [N]),
    each of at most 10 identifiers; the [i]-th chunk is the [i]-th run of
    ten consecutive identifiers of the list, so the chunks, put end to end,
    are the list itself; an empty list gives no chunk. *)
Theorem chunkLoop_partition ids :
  let chunks := chunkLoop ids [] in
  length chunks = (length ids + 9) / 10
  ∧ (length ids ≤ 10 * length chunks
     ∧ ∀ b, length ids ≤ 10 * b → length chunks ≤ b)
  ∧ Forall (λ chunk, length chunk ≤ 10) chunks
  ∧ (∀ i, i < length chunks →
       chunks !! i = Some (take 10 (drop (10 * i) ids)))
  ∧ concat chunks = ids
  ∧ (length ids = 0 → chunks = []).
Proof.
  intros chunks. subst chunks.
  pose proof (chunkLoop_length ids) as Hlen.
  pose proof (Nat.div_mod_eq (length ids + 9) 10) as Hdiv.
  pose proof (Nat.mod_upper_bound (length ids + 9) 10) as Hmod.
  repeat split.
  - done.
  - lia.
  - intros b Hb. lia.
  - eapply Forall_impl; [apply chunkLoop_sizes|]. simpl. lia.
  - intros i Hi. by apply chunkLoop_lookup.
  - apply chunkLoop_concat.
  - intros H0. apply nil_length_inv. rewrite Hlen, H0. done.
Qed.
End Chunking.


(** ** Sorting *)

Section Sort.
Context {A : Type} (comparefn : A → A → JsNumber).
Implicit Types (x : A) (l : list A).

Lemma sort_insert_perm x l : sort_insert comparefn x l ≡ₚ x :: l.
Proof.
  induction l as [|y l IH]; simpl; [done|].
  destruct (sortsAfter comparefn x y); [|done].
  rewrite IH. apply Permutation_swap.
Qed.

Lemma array_sort_perm l : array_sort comparefn l ≡ₚ l.
Proof.
  induction l as [|x l IH]; simpl; [done|].
  fold (array_sort comparefn l). by rewrite sort_insert_perm, IH.
Qed.

(** The comparator subtracts a numeric key, as [bySequencePosition] does. *)
Context (key : A → option Z).
Hypothesis comparefn_key : ∀ a b, comparefn a b = js_sub (key a) (key b).

Lemma keyLt_trans a b c : keyLt key a b → keyLt key b c → keyLt key a c.
Proof.
  intros (p & q & Ha & Hb & Hpq) (q' & r & Hb' & Hc & Hqr).
  exists p, r. repeat split; [done..|].
  rewrite Hb in Hb'. injection Hb' as <-. lia.
Qed.

Lemma sort_insert_sorted x l :
  is_Some (key x) → Forall (λ y, is_Some (key y)) l →
  key x ∉ map key l →
  StronglySorted (keyLt key) l →
  StronglySorted (keyLt key) (sort_insert comparefn x l).
Proof.
  intros [p Hp] Hl Hx Hs. induction Hs as [|y l Hs IH Hy]; simpl.
  - repeat constructor.
  - apply Forall_cons in Hl as [[q Hq] Hl].
    apply not_elem_of_cons in Hx as [Hxy Hx].
    unfold sortsAfter. rewrite comparefn_key, Hp, Hq. simpl.
    destruct (Z.ltb_spec 0 (p - q)) as [Hlt|Hge].
    + constructor; [by apply IH|].
      rewrite sort_insert_perm. constructor; [|done].
      exists q, p. repeat split; [done..|lia].
    + assert (keyLt key x y) as Hxlt.
      { exists p, q. repeat split; [done..|].
        assert (p ≠ q) by congruence. lia. }
      constructor; [by constructor|].
      constructor; [done|].
      eapply Forall_impl; [exact Hy|]. intros z. by apply keyLt_trans.
Qed.

Lemma array_sort_sorted l :
  Forall (λ y, is_Some (key y)) l →
  NoDup (map key l) →
  StronglySorted (keyLt key) (array_sort comparefn l).
Proof.
  induction l as [|x l IH]; simpl; intros Hl Hnd.
  - constructor.
  - fold (array_sort comparefn l).
    apply Forall_cons in Hl as [Hx Hl]. apply NoDup_cons in Hnd as [Hx' Hnd].
    apply sort_insert_sorted; [done| | |by apply IH].
    + by rewrite array_sort_perm.
    + by rewrite array_sort_perm.
Qed.
End Sort.

(** ** Document mapper, ordered circuit fetcher, contribution reader *)

(** The element the mapper builds from one snapshot. *)
Lemma fromQueryToFirebaseDocumentInfo_lookup queryDocSnap i :
  fromQueryToFirebaseDocumentInfo queryDocSnap !! i
  = (λ document, mkInfo (doc_id document) (doc_ref document) (doc_data document))
      <$> queryDocSnap !! i.
Proof. unfold fromQueryToFirebaseDocumentInfo. apply list_lookup_fmap. Qed.

(** C7. The document mapper is defined on every list of snapshots; its
    result has the length of the input and its [i]-th element is made of the
    identifier, the reference and the payload of the [i]-th snapshot, the
    payload being taken as it is, whichever of its fields are absent. *)
Theorem fromQueryToFirebaseDocumentInfo_total queryDocSnap :
  length (fromQueryToFirebaseDocumentInfo queryDocSnap) = length queryDocSnap
  ∧ (∀ i document, queryDocSnap !! i = Some document →
       fromQueryToFirebaseDocumentInfo queryDocSnap !! i
       = Some {| info_id := doc_id document;
                 info_ref := doc_ref document;
                 info_data := doc_data document |})
  ∧ (∀ i, queryDocSnap !! i = None →
       fromQueryToFirebaseDocumentInfo queryDocSnap !! i = None).
Proof.
  split; [apply length_map|].
  split; intros i; [intros document|]; intros Hi;
    by rewrite fromQueryToFirebaseDocumentInfo_lookup, Hi.
Qed.

Lemma getCeremonyCircuits_fulfilled db ceremonyId docs :
  getDocs_collection db (getCircuitsCollectionPath ceremonyId) = Fulfilled docs →
  getCeremonyCircuits db ceremonyId
  = ([GetDocsCollection (getCircuitsCollectionPath ceremonyId)],
     Fulfilled (array_sort bySequencePosition (fromQueryToFirebaseDocumentInfo docs))).
Proof.
  intros Hdocs. unfold getCeremonyCircuits, await, getAllCollectionDocs. simpl.
  by rewrite Hdocs.
Qed.

Lemma fromQueryToFirebaseDocumentInfo_positions docs :
  map positionOf (fromQueryToFirebaseDocumentInfo docs)
  = map (λ document, sequencePosition (doc_data document)) docs.
Proof. unfold fromQueryToFirebaseDocumentInfo. by rewrite map_map. Qed.

(** C2. [getCeremonyCircuits] sends one read, of the collection
    [ceremonies/{id}/circuits]; when every circuit read carries a sequence
    position and no two carry the same one, the promise is fulfilled with the
    mapped documents, rearranged so that the sequence positions strictly
    increase along the result. Circuits stored in the order of positions
    2, 0, 1 come back in the order 0, 1, 2. *)
Theorem getCeremonyCircuits_sorted db ceremonyId docs :
  getDocs_collection db ("ceremonies/" +:+ ceremonyId +:+ "/circuits") = Fulfilled docs →
  Forall (λ document, is_Some (sequencePosition (doc_data document))) docs →
  NoDup (map (λ document, sequencePosition (doc_data document)) docs) →
  ∃ circuits,
    getCeremonyCircuits db ceremonyId
    = ([GetDocsCollection ("ceremonies/" +:+ ceremonyId +:+ "/circuits")],
       Fulfilled circuits)
    ∧ circuits ≡ₚ fromQueryToFirebaseDocumentInfo docs
    ∧ StronglySorted (keyLt positionOf) circuits
    ∧ (∀ d2 d0 d1,
         docs = [d2; d0; d1] →
         sequencePosition (doc_data d2) = Some 2%Z →
         sequencePosition (doc_data d0) = Some 0%Z →
         sequencePosition (doc_data d1) = Some 1%Z →
         circuits = fromQueryToFirebaseDocumentInfo [d0; d1; d2]).
Proof.
  intros Hdocs Hall Hnd.
  exists (array_sort bySequencePosition (fromQueryToFirebaseDocumentInfo docs)).
  split; [by apply getCeremonyCircuits_fulfilled|].
  split; [apply array_sort_perm|].
  split.
  - apply (array_sort_sorted bySequencePosition positionOf).
    + done.
    + unfold fromQueryToFirebaseDocumentInfo. rewrite Forall_map.
      eapply Forall_impl; [exact Hall|]. done.
    + by rewrite fromQueryToFirebaseDocumentInfo_positions.
  - intros d2 d0 d1 -> H2 H0 H1. simpl.
    unfold array_sort, sortsAfter, bySequencePosition. simpl.
    rewrite H0, H1. simpl. unfold sortsAfter. simpl.
    rewrite H0, H1, H2. simpl. done.
Qed.

(** Without the position of one circuit the comparator yields [NaN] against
    it and the other circuits are not moved past it: here nothing moves.
    (With such a comparator the order depends on the sorting algorithm; this
    is the order of the reference algorithm.) *)
Example getCeremonyCircuits_absent_position :
  map info_id
      (array_sort bySequencePosition
         (fromQueryToFirebaseDocumentInfo
            [circuitDoc "a" (Some 2%Z); circuitDoc "b" None; circuitDoc "c" (Some 1%Z)]))
  = ["a"; "b"; "c"].
Proof. reflexivity. Qed.

(** C9. Whatever the circuits read hold as sequence positions (equal ones,
    absent ones), the result of [getCeremonyCircuits] is a rearrangement of
    the mapped documents: the same records, each as many times. *)
Theorem getCeremonyCircuits_permutation db ceremonyId docs :
  getDocs_collection db (getCircuitsCollectionPath ceremonyId) = Fulfilled docs →
  ∃ circuits,
    outcome (getCeremonyCircuits db ceremonyId) = Fulfilled circuits
    ∧ circuits ≡ₚ fromQueryToFirebaseDocumentInfo docs
    ∧ length circuits = length docs.
Proof.
  intros Hdocs. eexists. rewrite (getCeremonyCircuits_fulfilled _ _ _ Hdocs).
  split; [done|]. split; [apply array_sort_perm|].
  rewrite array_sort_perm. apply length_map.
Qed.

(** C8. [getContributions] sends one read, of the collection
    [ceremonies/{ceremonyId}/circuits/{circuitId}/contributions], and is
    fulfilled with one element per document read, in the order of the read:
    the [i]-th element holds the identifier and the payload of the [i]-th
    document, and no reference. *)
Theorem getContributions_in_store_order db ceremonyId circuitId docs :
  getDocs_collection db
    ("ceremonies/" +:+ ceremonyId +:+ "/circuits/" +:+ circuitId +:+ "/contributions")
  = Fulfilled docs →
  ∃ contributions,
    getContributions db ceremonyId circuitId
    = ([GetDocsCollection
          ("ceremonies/" +:+ ceremonyId +:+ "/circuits/" +:+ circuitId +:+ "/contributions")],
       Fulfilled contributions)
    ∧ length contributions = length docs
    ∧ ∀ i, contributions !! i
           = (λ document, {| uid := doc_id document;
                             contribution_data := doc_data document |})
               <$> docs !! i.
Proof.
  intros Hdocs. eexists.
  unfold getContributions, await, getAllCollectionDocs. simpl. rewrite Hdocs.
  split; [done|]. split; [apply length_map|].
  intros i. apply list_lookup_fmap.
Qed.

(** ** Fan-out executor *)

Section FanOut.
Context {R : Type}.
Implicit Types (settled : list (Settled R)) (acc : FanOut R).

Lemma foldl_record acc settled :
  foldl record acc settled
  = {| results := results acc ++ omap fulfilled settled;
       errors := errors acc ++ omap rejection settled |}.
Proof.
  revert acc. induction settled as [|[r|e] settled IH]; intros [rs es]; simpl.
  - by rewrite !app_nil_r.
  - rewrite IH. simpl. by rewrite <- app_assoc.
  - rewrite IH. simpl. by rewrite <- app_assoc.
Qed.

Lemma collectAll_results settled :
  results (collectAll settled) = omap fulfilled settled.
Proof. unfold collectAll. by rewrite foldl_record. Qed.

Lemma collectAll_errors settled :
  errors (collectAll settled) = omap rejection settled.
Proof. unfold collectAll. by rewrite foldl_record. Qed.

Lemma settled_split settled :
  length (omap fulfilled settled) + length (omap rejection settled)
  = length settled.
Proof. induction settled as [|[r|e] settled IH]; csimpl; lia. Qed.

Lemma rejection_count settled :
  length (omap rejection settled) = length (List.filter isRejected settled).
Proof. induction settled as [|[r|e] settled IH]; csimpl; lia. Qed.
End FanOut.

Lemma settleOrder_seq {A} (dispatched : list A) :
  settleOrder dispatched (seq 0 (length dispatched)) = dispatched.
Proof.
  unfold settleOrder. induction dispatched as [|x l IH]; [done|].
  cbn [length seq]. rewrite <- fmap_S_seq. csimpl. f_equal.
  rewrite <- IH at 2. clear IH.
  induction (seq 0 (length l)) as [|i rest IH]; [done|].
  csimpl. by rewrite IH.
Qed.

Lemma settleOrder_nil {A} completion : settleOrder (@nil A) completion = [].
Proof. unfold settleOrder. induction completion as [|i completion IH]; done. Qed.

Lemma settleOrder_perm {A} (dispatched : list A) completion :
  completion ≡ₚ seq 0 (length dispatched) →
  settleOrder dispatched completion ≡ₚ dispatched.
Proof.
  intros Hperm. rewrite <- (settleOrder_seq dispatched) at 2.
  unfold settleOrder. by rewrite Hperm.
Qed.

Lemma output_sizes {R} (settled : list (Settled (list R))) :
  length (concat (omap fulfilled settled))
  = sum_list_with (λ s, match s with
                        | Fulfilled out => length out
                        | Rejected _ => 0
                        end) settled.
Proof.
  induction settled as [|[out|e] settled IH]; csimpl; [done| |done].
  by rewrite length_app, IH.
Qed.

Lemma omap_map {A B C} (f : B → option C) (g : A → B) (l : list A) :
  omap f (map g l) = omap (λ a, f (g a)) l.
Proof. induction l as [|a l IH]; csimpl; [done|]. by rewrite IH. Qed.

Lemma sum_list_with_map {A B} (f : B → nat) (g : A → B) (l : list A) :
  sum_list_with f (map g l) = sum_list_with (λ a, f (g a)) l.
Proof. induction l as [|a l IH]; simpl; [done|]. by rewrite IH. Qed.

Lemma filter_map_length {A B} (p : B → bool) (g : A → B) (l : list A) :
  length (List.filter p (map g l)) = length (List.filter (λ a, p (g a)) l).
Proof.
  induction l as [|a l IH]; simpl; [done|].
  destruct (p (g a)); simpl; by rewrite IH.
Qed.

Lemma omap_rejection_nil {R} (settled : list (Settled R)) :
  Forall (λ s, isRejected s = false) settled → omap rejection settled = [].
Proof.
  induction 1 as [|[r|e] settled Hs _ IH]; csimpl; [done|done|discriminate].
Qed.

Lemma omap_fulfilled_nil {R} (settled : list (Settled R)) :
  Forall (λ s, isRejected s = true) settled → omap fulfilled settled = [].
Proof.
  induction 1 as [|[r|e] settled Hs _ IH]; csimpl; [done|discriminate|done].
Qed.

(** The batches as they settle, when [completion] orders all of them. *)
Lemma processItems_settled {T R} completion (items : list T) (process : T → Async R) :
  completion ≡ₚ seq 0 (length items) →
  settleOrder (map outcome (map process items)) completion
  ≡ₚ map (λ item, outcome (process item)) items.
Proof.
  intros Hperm. rewrite settleOrder_perm.
  - by rewrite map_map.
  - by rewrite !length_map.
Qed.

(** C3. In collect-all mode, whichever batches fail, [processItems] is
    fulfilled with a pair: [results] holds the outputs of the batches that
    succeeded and [errors] the failures of those that failed, each once. So
    the flattened results have as many items as the successful outputs
    together, there are as many errors as failing batches, and results and
    errors together count one per batch; with no failing batch [errors] is
    empty, and with all failing [results] is. *)
Theorem processItems_collect_all {T R} completion (batches : list T)
    (process : T → Async (list R)) :
  completion ≡ₚ seq 0 (length batches) →
  ∃ fanOut,
    outcome (processItems completion batches process false) = Fulfilled fanOut
    ∧ results fanOut ≡ₚ omap (λ batch, fulfilled (outcome (process batch))) batches
    ∧ errors fanOut ≡ₚ omap (λ batch, rejection (outcome (process batch))) batches
    ∧ length (concat (results fanOut))
      = sum_list_with (λ batch, match outcome (process batch) with
                                | Fulfilled out => length out
                                | Rejected _ => 0
                                end) batches
    ∧ length (errors fanOut)
      = length (List.filter (λ batch, isRejected (outcome (process batch))) batches)
    ∧ length (results fanOut) + length (errors fanOut) = length batches
    ∧ (Forall (λ batch, isRejected (outcome (process batch)) = false) batches →
       errors fanOut = [])
    ∧ (Forall (λ batch, isRejected (outcome (process batch)) = true) batches →
       results fanOut = []).
Proof.
  intros Hperm. pose proof (processItems_settled _ _ process Hperm) as Hsettled.
  eexists. split; [reflexivity|].
  rewrite collectAll_results, collectAll_errors.
  set (settled := settleOrder _ _) in *.
  repeat split.
  - by rewrite Hsettled, omap_map.
  - by rewrite Hsettled, omap_map.
  - by rewrite output_sizes, Hsettled, sum_list_with_map.
  - rewrite Hsettled, rejection_count.
    apply (filter_map_length isRejected (λ batch, outcome (process batch))).
  - rewrite settled_split, Hsettled. apply length_map.
  - intros Hnone. apply omap_rejection_nil.
    rewrite Hsettled. by rewrite Forall_map.
  - intros Hall. apply omap_fulfilled_nil.
    rewrite Hsettled. by rewrite Forall_map.
Qed.

(** ** Avatar aggregator *)

Lemma fetchAvatarsForChunk_unfold db chunk :
  fetchAvatarsForChunk db chunk
  = ([GetDocsWhereIn "avatars" "__name__" chunk],
     match getDocs_where_in db "avatars" "__name__" chunk with
     | Fulfilled avatarDocs =>
         Fulfilled (map (λ doc, avatarUrl (doc_data doc))
                        (List.filter (λ doc, doc_exists doc) avatarDocs))
     | Rejected e => Rejected e
     end).
Proof.
  unfold fetchAvatarsForChunk, await, getDocs_query. simpl.
  by destruct (getDocs_where_in db "avatars" "__name__" chunk).
Qed.

(** C10. When the membership query of a chunk is answered, the promise of
    [fetchAvatarsForChunk] is fulfilled with one entry per existing document
    of the answer, in the order of the answer: the [avatarUrl] field of the
    document as it reads, so an absent field gives an absent entry (and not
    one entry less, nor a rejection). *)
Theorem fetchAvatarsForChunk_entries db chunk avatarDocs :
  getDocs_where_in db "avatars" "__name__" chunk = Fulfilled avatarDocs →
  ∃ urls,
    fetchAvatarsForChunk db chunk
    = ([GetDocsWhereIn "avatars" "__name__" chunk], Fulfilled urls)
    ∧ length urls = length (List.filter doc_exists avatarDocs)
    ∧ (∀ i, urls !! i
            = (λ doc, avatarUrl (doc_data doc))
                <$> List.filter doc_exists avatarDocs !! i)
    ∧ (∀ i doc, List.filter doc_exists avatarDocs !! i = Some doc →
                avatarUrl (doc_data doc) = None →
                urls !! i = Some None).
Proof.
  intros Hanswer. eexists. rewrite fetchAvatarsForChunk_unfold, Hanswer.
  change (λ doc, doc_exists doc) with doc_exists.
  split; [reflexivity|]. split; [apply length_map|].
  assert (∀ i, map (λ doc, avatarUrl (doc_data doc))
                   (List.filter doc_exists avatarDocs) !! i
               = (λ doc, avatarUrl (doc_data doc))
                   <$> List.filter doc_exists avatarDocs !! i) as Hlookup
    by (intros i; apply list_lookup_fmap).
  split; [done|].
  intros i doc Hi Hurl. by rewrite Hlookup, Hi, <- Hurl.
Qed.

Lemma fetchAvatarsForChunk_traces db chunks :
  concat (map trace (map (fetchAvatarsForChunk db) chunks))
  = map (GetDocsWhereIn "avatars" "__name__") chunks.
Proof.
  induction chunks as [|chunk chunks IH]; simpl; [done|].
  rewrite IH. by rewrite fetchAvatarsForChunk_unfold.
Qed.

Lemma participant_ids docs :
  map (λ participant, info_id participant) (fromQueryToFirebaseDocumentInfo docs)
  = map doc_id docs.
Proof. unfold fromQueryToFirebaseDocumentInfo. by rewrite map_map. Qed.

(** The run of [getParticipantsAvatar] once the participants are read. *)
Lemma getParticipantsAvatar_unfold db completion ceremonyId docs :
  getDocs_collection db ("ceremonies/" +:+ ceremonyId +:+ "/participants")
  = Fulfilled docs →
  getParticipantsAvatar db completion ceremonyId
  = (GetDocsCollection ("ceremonies/" +:+ ceremonyId +:+ "/participants")
       :: map (GetDocsWhereIn "avatars" "__name__") (chunkLoop (map doc_id docs) []),
     Fulfilled
       (concat (results (collectAll
          (settleOrder
             (map outcome (map (fetchAvatarsForChunk db)
                               (chunkLoop (map doc_id docs) [])))
             completion))))).
Proof.
  intros Hdocs. unfold getParticipantsAvatar, getAllCollectionDocs.
  unfold await at 1. simpl. rewrite Hdocs. rewrite participant_ids.
  unfold await, processItems, resolve. simpl.
  by rewrite fetchAvatarsForChunk_traces, app_nil_r.
Qed.

Lemma concat_Permutation {A} (l k : list (list A)) :
  l ≡ₚ k → concat l ≡ₚ concat k.
Proof.
  induction 1 as [|x l k _ IH|x y l|l k m _ IH1 _ IH2]; simpl.
  - done.
  - by rewrite IH.
  - rewrite !app_assoc. f_equiv. apply Permutation_app_comm.
  - by rewrite IH1.
Qed.

(** C6. With no participant in the ceremony, the loop makes no chunk and
    [getParticipantsAvatar] is fulfilled with the empty list, the read of
    the participants being the only request sent: no membership query. *)
Theorem getParticipantsAvatar_no_participant db completion ceremonyId :
  getDocs_collection db ("ceremonies/" +:+ ceremonyId +:+ "/participants")
  = Fulfilled [] →
  chunkLoop (map (λ participant, info_id participant)
                 (fromQueryToFirebaseDocumentInfo [])) [] = []
  ∧ getParticipantsAvatar db completion ceremonyId
    = ([GetDocsCollection ("ceremonies/" +:+ ceremonyId +:+ "/participants")],
       Fulfilled []).
Proof.
  intros Hdocs. split; [by simp chunkLoop|].
  rewrite (getParticipantsAvatar_unfold _ _ _ _ Hdocs). simpl.
  simp chunkLoop. simpl. by rewrite settleOrder_nil.
Qed.

Lemma fetchAvatarsForChunk_rejections db (chunks : list (list string)) :
  omap (λ chunk, rejection (outcome (fetchAvatarsForChunk db chunk))) chunks
  = omap (λ chunk, rejection (getDocs_where_in db "avatars" "__name__" chunk)) chunks.
Proof.
  induction chunks as [|chunk chunks IH]; csimpl; [done|].
  rewrite IH, fetchAvatarsForChunk_unfold. unfold outcome. simpl.
  by destruct (getDocs_where_in db "avatars" "__name__" chunk).
Qed.

Lemma elem_of_concat {A} (x : A) (ls : list (list A)) :
  x ∈ concat ls ↔ ∃ l, l ∈ ls ∧ x ∈ l.
Proof.
  rewrite list_elem_of_In, in_concat. split; intros (l & Hl & Hx); exists l.
  - by rewrite !list_elem_of_In.
  - by rewrite <- !list_elem_of_In.
Qed.

(** The URLs a chunk yields out of an answer to its membership query. *)
Lemma fetchAvatarsForChunk_url db chunk avatarDocs doc :
  getDocs_where_in db "avatars" "__name__" chunk = Fulfilled avatarDocs →
  doc ∈ avatarDocs → doc_exists doc = true →
  ∃ urls, outcome (fetchAvatarsForChunk db chunk) = Fulfilled urls
          ∧ avatarUrl (doc_data doc) ∈ urls.
Proof.
  intros Hanswer Hdoc Hexists. eexists.
  rewrite fetchAvatarsForChunk_unfold, Hanswer. split; [reflexivity|].
  rewrite list_elem_of_In. apply in_map_iff. exists doc. split; [done|].
  apply filter_In. by rewrite <- list_elem_of_In.
Qed.

Lemma getParticipantsAvatar_settled db completion ceremonyId docs :
  getDocs_collection db ("ceremonies/" +:+ ceremonyId +:+ "/participants")
  = Fulfilled docs →
  completion ≡ₚ seq 0 (length (chunkLoop (map doc_id docs) [])) →
  ∃ urls,
    getParticipantsAvatar db completion ceremonyId
    = (GetDocsCollection ("ceremonies/" +:+ ceremonyId +:+ "/participants")
         :: map (GetDocsWhereIn "avatars" "__name__") (chunkLoop (map doc_id docs) []),
       Fulfilled urls)
    ∧ urls ≡ₚ concat (omap (λ chunk, fulfilled (outcome (fetchAvatarsForChunk db chunk)))
                           (chunkLoop (map doc_id docs) [])).
Proof.
  intros Hdocs Hperm.
  pose proof (processItems_settled _ _ (fetchAvatarsForChunk db) Hperm) as Hsettled.
  eexists. split; [by apply getParticipantsAvatar_unfold|].
  apply concat_Permutation. by rewrite collectAll_results, Hsettled, omap_map.
Qed.

(** C4. Once the participants are read, [getParticipantsAvatar] is
    fulfilled whichever membership queries are rejected: every chunk's query
    is sent, the fan-out records one error per rejected query, the result
    keeps nothing of them, and it holds the URLs of every chunk whose query
    was answered. *)
Theorem getParticipantsAvatar_partial_failure db completion ceremonyId docs :
  getDocs_collection db ("ceremonies/" +:+ ceremonyId +:+ "/participants")
  = Fulfilled docs →
  completion ≡ₚ seq 0 (length (chunkLoop (map doc_id docs) [])) →
  ∃ fanOut urls,
    trace (getParticipantsAvatar db completion ceremonyId)
    = GetDocsCollection ("ceremonies/" +:+ ceremonyId +:+ "/participants")
        :: map (GetDocsWhereIn "avatars" "__name__") (chunkLoop (map doc_id docs) [])
    ∧ outcome (processItems completion (chunkLoop (map doc_id docs) [])
                            (fetchAvatarsForChunk db) false)
      = Fulfilled fanOut
    ∧ errors fanOut
      ≡ₚ omap (λ chunk, rejection (getDocs_where_in db "avatars" "__name__" chunk))
              (chunkLoop (map doc_id docs) [])
    ∧ outcome (getParticipantsAvatar db completion ceremonyId) = Fulfilled urls
    ∧ urls = concat (results fanOut)
    ∧ urls ≡ₚ concat (omap (λ chunk, fulfilled (outcome (fetchAvatarsForChunk db chunk)))
                           (chunkLoop (map doc_id docs) []))
    ∧ (∀ chunk avatarDocs doc,
         chunk ∈ chunkLoop (map doc_id docs) [] →
         getDocs_where_in db "avatars" "__name__" chunk = Fulfilled avatarDocs →
         doc ∈ avatarDocs → doc_exists doc = true →
         avatarUrl (doc_data doc) ∈ urls).
Proof.
  intros Hdocs Hperm.
  pose proof (processItems_settled _ _ (fetchAvatarsForChunk db) Hperm) as Hsettled.
  rewrite (getParticipantsAvatar_unfold _ _ _ _ Hdocs).
  set (chunks := chunkLoop (map doc_id docs) []) in *.
  eexists _, _. split; [reflexivity|]. split; [reflexivity|].
  assert (concat (results (collectAll
            (settleOrder (map outcome (map (fetchAvatarsForChunk db) chunks))
                         completion)))
          ≡ₚ concat (omap (λ chunk, fulfilled (outcome (fetchAvatarsForChunk db chunk)))
                          chunks)) as Hurls.
  { apply concat_Permutation. by rewrite collectAll_results, Hsettled, omap_map. }
  split.
  { by rewrite collectAll_errors, Hsettled, omap_map, fetchAvatarsForChunk_rejections. }
  split; [reflexivity|]. split; [reflexivity|]. split; [exact Hurls|].
  intros chunk avatarDocs doc Hchunk Hanswer Hdoc Hexists. unfold outcome at 1. simpl.
  rewrite Hurls. apply elem_of_concat.
  destruct (fetchAvatarsForChunk_url _ _ _ _ Hanswer Hdoc Hexists) as (urls & Hout & Hin).
  exists urls. split; [|done].
  apply list_elem_of_omap. exists chunk. by rewrite Hout.
Qed.

Lemma chunkLoop_25 {A} (ids : list A) :
  length ids = 25 →
  chunkLoop ids [] = [take 10 ids; take 10 (drop 10 ids); drop 20 ids].
Proof.
  intros Hlen.
  pose proof (chunkLoop_length ids) as Hchunks. rewrite Hlen in Hchunks.
  change ((25 + 9) / 10) with 3 in Hchunks.
  pose proof (chunkLoop_lookup ids 0) as H0.
  pose proof (chunkLoop_lookup ids 1) as H1.
  pose proof (chunkLoop_lookup ids 2) as H2.
  destruct (chunkLoop ids []) as [|c1 [|c2 [|c3 [|c4 rest]]]]; try discriminate.
  cbn [length] in H0, H1, H2.
  specialize (H0 ltac:(lia)). specialize (H1 ltac:(lia)). specialize (H2 ltac:(lia)).
  cbn in H0, H1, H2.
  injection H0 as ->. injection H1 as ->. injection H2 as ->.
  do 2 f_equal. f_equal. apply take_ge. rewrite length_drop. lia.
Qed.

(** C5. With 25 participants read, [getParticipantsAvatar] sends, after the
    read of the participants, exactly three membership queries on the
    [avatars] collection, for the first ten identifiers, the next ten and the
    last five, and is fulfilled. When the store answers a membership query
    with the avatar documents whose identifier is among the values, the
    result is, up to the order of the chunks, the URLs of the existing avatar
    documents of each chunk, put end to end: an entry is in the result
    exactly when it is the URL of an existing avatar document of a
    participant, so a participant without avatar document adds no entry and
    no failure. *)
Theorem getParticipantsAvatar_25_participants db completion ceremonyId docs avatars :
  getDocs_collection db ("ceremonies/" +:+ ceremonyId +:+ "/participants")
  = Fulfilled docs →
  length docs = 25 →
  completion ≡ₚ [0; 1; 2] →
  let ids := map doc_id docs in
  let c1 := take 10 ids in
  let c2 := take 10 (drop 10 ids) in
  let c3 := drop 20 ids in
  ids = c1 ++ c2 ++ c3
  ∧ length c1 = 10 ∧ length c2 = 10 ∧ length c3 = 5
  ∧ ∃ urls,
    getParticipantsAvatar db completion ceremonyId
    = ([GetDocsCollection ("ceremonies/" +:+ ceremonyId +:+ "/participants");
        GetDocsWhereIn "avatars" "__name__" c1;
        GetDocsWhereIn "avatars" "__name__" c2;
        GetDocsWhereIn "avatars" "__name__" c3],
       Fulfilled urls)
    ∧ ((∀ values,
          getDocs_where_in db "avatars" "__name__" values
          = Fulfilled (List.filter (λ doc, bool_decide (doc_id doc ∈ values)) avatars)) →
       urls ≡ₚ concat (map (λ chunk,
                              map (λ doc, avatarUrl (doc_data doc))
                                  (List.filter (λ doc, doc_exists doc)
                                     (List.filter (λ doc, bool_decide (doc_id doc ∈ chunk))
                                                  avatars)))
                           [c1; c2; c3])
       ∧ ∀ url, url ∈ urls ↔
                ∃ doc, doc ∈ avatars ∧ doc_exists doc = true
                       ∧ doc_id doc ∈ map doc_id docs
                       ∧ avatarUrl (doc_data doc) = url).
Proof.
  intros Hdocs Hlen Hperm ids c1 c2 c3. subst ids c1 c2 c3.
  assert (length (map doc_id docs) = 25) as Hids by by rewrite length_map.
  pose proof (chunkLoop_25 _ Hids) as Hchunks.
  destruct (getParticipantsAvatar_settled db completion ceremonyId docs Hdocs)
    as (urls & Hrun & Hurls).
  { by rewrite Hchunks. }
  rewrite Hchunks in Hrun, Hurls.
  set (ids := map doc_id docs) in *.
  assert (ids = take 10 ids ++ take 10 (drop 10 ids) ++ drop 20 ids) as Hsplit.
  { rewrite <- (take_drop 10 ids) at 1. f_equal.
    rewrite <- (take_drop 10 (drop 10 ids)) at 1. f_equal. by rewrite drop_drop. }
  split; [exact Hsplit|].
  split; [rewrite length_take; lia|].
  split; [rewrite length_take, length_drop; lia|].
  split; [rewrite length_drop; lia|].
  exists urls. split; [exact Hrun|].
  intros Hstore.
  assert (∀ chunk, outcome (fetchAvatarsForChunk db chunk)
                   = Fulfilled (map (λ doc, avatarUrl (doc_data doc))
                                  (List.filter (λ doc, doc_exists doc)
                                     (List.filter (λ doc, bool_decide (doc_id doc ∈ chunk))
                                                  avatars)))) as Hfetch.
  { intros chunk. by rewrite fetchAvatarsForChunk_unfold, Hstore. }
  csimpl in Hurls. rewrite !Hfetch in Hurls. csimpl in Hurls.
  split; [exact Hurls|].
  intros url. rewrite Hurls. simpl. rewrite !app_nil_r.
  rewrite !elem_of_app, !list_elem_of_In, !in_map_iff.
  setoid_rewrite filter_In. setoid_rewrite filter_In.
  setoid_rewrite bool_decide_eq_true. setoid_rewrite <- list_elem_of_In.
  assert (∀ x, x ∈ ids ↔ x ∈ take 10 ids ∨ x ∈ take 10 (drop 10 ids) ∨ x ∈ drop 20 ids)
    as Hmem by (intros x; rewrite Hsplit at 1; by rewrite !elem_of_app).
  setoid_rewrite Hmem. clear. split.
  - intros [(x & ? & (? & ?) & ?)|[(x & ? & (? & ?) & ?)|(x & ? & (? & ?) & ?)]];
      exists x; tauto.
  - intros (x & ? & ? & [?|[?|?]] & ?);
      [left|right; left|right; right]; exists x; tauto.
Qed.

(** ** The properties on the sample stores *)

Ltac by_computation := apply (bool_decide_unpack _); vm_compute; exact I.

(** Circuits stored at positions 2, 0, 1 come back as [b], [c], [a]. *)
Lemma getCeremonyCircuits_sorted_sample :
  ∃ circuits,
    getCeremonyCircuits
      (circuitsStore [circuitDoc "a" (Some 2%Z); circuitDoc "b" (Some 0%Z);
                      circuitDoc "c" (Some 1%Z)]) "c1"
    = ([GetDocsCollection "ceremonies/c1/circuits"], Fulfilled circuits)
    ∧ StronglySorted (keyLt positionOf) circuits
    ∧ map info_id circuits = ["b"; "c"; "a"].
Proof.
  destruct (getCeremonyCircuits_sorted
              (circuitsStore [circuitDoc "a" (Some 2%Z); circuitDoc "b" (Some 0%Z);
                              circuitDoc "c" (Some 1%Z)]) "c1"
              [circuitDoc "a" (Some 2%Z); circuitDoc "b" (Some 0%Z);
               circuitDoc "c" (Some 1%Z)])
    as (circuits & Hrun & _ & Hsorted & Horder).
  - reflexivity.
  - repeat constructor; by eexists.
  - by_computation.
  - exists circuits. split; [exact Hrun|]. split; [exact Hsorted|].
    by rewrite (Horder _ _ _ eq_refl eq_refl eq_refl eq_refl).
Defined.

(** Two circuits at position 1 and one without position: all three are
    returned. *)
Lemma getCeremonyCircuits_permutation_sample :
  ∃ circuits,
    outcome (getCeremonyCircuits
               (circuitsStore [circuitDoc "a" (Some 1%Z); circuitDoc "b" None;
                               circuitDoc "c" (Some 1%Z)]) "c1")
    = Fulfilled circuits
    ∧ circuits ≡ₚ fromQueryToFirebaseDocumentInfo
                    [circuitDoc "a" (Some 1%Z); circuitDoc "b" None;
                     circuitDoc "c" (Some 1%Z)]
    ∧ length circuits = 3.
Proof.
  apply (getCeremonyCircuits_permutation
           (circuitsStore [circuitDoc "a" (Some 1%Z); circuitDoc "b" None;
                           circuitDoc "c" (Some 1%Z)]) "c1").
  reflexivity.
Defined.

Lemma getContributions_in_store_order_sample :
  ∃ contributions,
    getContributions contributionsStore "c1" "k1"
    = ([GetDocsCollection "ceremonies/c1/circuits/k1/contributions"],
       Fulfilled contributions)
    ∧ map uid contributions = ["z"; "a"].
Proof.
  destruct (getContributions_in_store_order contributionsStore "c1" "k1"
              [circuitDoc "z" None; circuitDoc "a" (Some 4%Z)] eq_refl)
    as (contributions & Hrun & Hlen & Hlookup).
  exists contributions. split; [exact Hrun|].
  pose proof (Hlookup 0) as H0. pose proof (Hlookup 1) as H1.
  destruct contributions as [|k0 [|k1 [|k2 rest]]]; try discriminate.
  injection H0 as ->. injection H1 as ->. reflexivity.
Defined.

(** Three batches settling in the order 2, 0, 1, the one-element batch
    failing. *)
Lemma processItems_collect_all_sample :
  ∃ fanOut,
    outcome (processItems [2; 0; 1] [[1; 2]; [3]; [4; 5; 6]]
               (λ batch : list nat,
                  if decide (length batch = 1) then ([], Rejected "unavailable")
                  else resolve batch) false)
    = Fulfilled fanOut
    ∧ length (concat (results fanOut)) = 5
    ∧ length (errors fanOut) = 1
    ∧ length (results fanOut) + length (errors fanOut) = 3.
Proof.
  destruct (processItems_collect_all [2; 0; 1] [[1; 2]; [3]; [4; 5; 6]]
              (λ batch : list nat,
                 if decide (length batch = 1) then ([], Rejected "unavailable")
                 else resolve batch))
    as (fanOut & Hrun & _ & _ & Hsize & Herrors & Hcount & _).
  - by_computation.
  - exists fanOut. split; [exact Hrun|]. split; [exact Hsize|].
    split; [exact Herrors|exact Hcount].
Defined.

(** Twenty-five participants, the query of the first chunk rejected: the
    avatars of the two other chunks are returned. *)
Lemma getParticipantsAvatar_partial_failure_sample :
  ∃ fanOut urls,
    outcome (getParticipantsAvatar (avatarStore 25 withoutP3) [2; 0; 1] "c1")
    = Fulfilled urls
    ∧ length (errors fanOut) = 1
    ∧ urls = concat (results fanOut)
    ∧ Some "https://avatars/12" ∈ urls.
Proof.
  destruct (getParticipantsAvatar_partial_failure
              (avatarStore 25 withoutP3) [2; 0; 1] "c1" (map participantDoc (seq 0 25)))
    as (fanOut & urls & _ & _ & Herrors & Hrun & Hflat & _ & Hin).
  - reflexivity.
  - by_computation.
  - exists fanOut, urls. split; [exact Hrun|].
    split; [by rewrite Herrors|]. split; [exact Hflat|].
    apply (Hin (map (λ n, "p" +:+ pretty n) (seq 10 10))
               [avatarDoc 12 (Some "https://avatars/12")]
               (avatarDoc 12 (Some "https://avatars/12"))).
    + by_computation.
    + reflexivity.
    + constructor.
    + reflexivity.
Defined.

Lemma getParticipantsAvatar_25_participants_sample :
  ∃ urls,
    getParticipantsAvatar (avatarStore 25 reachable) [2; 0; 1] "c1"
    = ([GetDocsCollection "ceremonies/c1/participants";
        GetDocsWhereIn "avatars" "__name__" (map (λ n, "p" +:+ pretty n) (seq 0 10));
        GetDocsWhereIn "avatars" "__name__" (map (λ n, "p" +:+ pretty n) (seq 10 10));
        GetDocsWhereIn "avatars" "__name__" (map (λ n, "p" +:+ pretty n) (seq 20 5))],
       Fulfilled urls)
    ∧ urls ≡ₚ [None; Some "https://avatars/12"; Some "https://avatars/24"].
Proof.
  destruct (getParticipantsAvatar_25_participants
              (avatarStore 25 reachable) [2; 0; 1] "c1" (map participantDoc (seq 0 25))
              sampleAvatars)
    as (_ & _ & _ & _ & urls & Hrun & Hurls).
  - reflexivity.
  - reflexivity.
  - by_computation.
  - exists urls. split; [exact Hrun|].
    destruct Hurls as [Hurls _]; [reflexivity|]. exact Hurls.
Defined.

Lemma getParticipantsAvatar_no_participant_sample :
  chunkLoop (map (λ participant, info_id participant)
                 (fromQueryToFirebaseDocumentInfo [])) [] = []
  ∧ getParticipantsAvatar (avatarStore 0 reachable) [] "c1"
    = ([GetDocsCollection "ceremonies/c1/participants"], Fulfilled []).
Proof.
  apply (getParticipantsAvatar_no_participant (avatarStore 0 reachable) [] "c1").
  reflexivity.
Defined.

(** The avatar of [p1] has no URL field: its entry is there, and absent. *)
Lemma fetchAvatarsForChunk_entries_sample :
  ∃ urls,
    fetchAvatarsForChunk (avatarStore 25 reachable) ["p0"; "p1"; "p12"]
    = ([GetDocsWhereIn "avatars" "__name__" ["p0"; "p1"; "p12"]], Fulfilled urls)
    ∧ length urls = 2
    ∧ urls !! 0 = Some None.
Proof.
  destruct (fetchAvatarsForChunk_entries (avatarStore 25 reachable) ["p0"; "p1"; "p12"]
              [avatarDoc 1 None; avatarDoc 12 (Some "https://avatars/12")] eq_refl)
    as (urls & Hrun & Hlen & _ & Habsent).
  exists urls. split; [exact Hrun|]. split; [exact Hlen|].
  by apply (Habsent 0 (avatarDoc 1 None)).
Defined.

(** * Further properties *)

(** ** The chunking loop *)

Section ChunkShapes.
Context {A : Type}.
Implicit Types (x : A) (ids xs : list A) (chunks : list (list A)).

(** X1. No chunk is empty: the [i]-th chunk holds the [min 10 (N - 10 i)]
    identifiers that are left at its turn, which is at least one, and every
    chunk but the last holds exactly ten. *)
Theorem chunkLoop_chunk_length ids i chunk :
  chunkLoop ids [] !! i = Some chunk →
  length chunk = 10 `min` (length ids - 10 * i)
  ∧ 0 < length chunk
  ∧ (S i < length (chunkLoop ids []) → length chunk = 10).
Proof.
  intros Hi. pose proof (lookup_lt_Some _ _ _ Hi) as Hlt.
  rewrite chunkLoop_lookup in Hi by done. injection Hi as <-.
  rewrite chunkLoop_length in *.
  pose proof (Nat.div_mod_eq (length ids + 9) 10) as Hdiv.
  pose proof (Nat.mod_upper_bound (length ids + 9) 10) as Hmod.
  rewrite length_take, length_drop. lia.
Qed.

(** X2. Chunking goes through a concatenation whose first part has a
    multiple of ten identifiers: the chunks of the whole are the chunks of
    the first part followed by those of the second. *)
Theorem chunkLoop_app ids ids' k :
  length ids = 10 * k →
  chunkLoop (ids ++ ids') [] = chunkLoop ids [] ++ chunkLoop ids' [].
Proof.
  revert ids. induction k as [|k IH]; intros ids Hlen.
  - destruct ids; [|discriminate]. by simp chunkLoop.
  - destruct ids as [|x xs]; [discriminate|].
    change ((x :: xs) ++ ids') with (x :: (xs ++ ids')).
    rewrite !chunkLoop_cons.
    change (x :: (xs ++ ids')) with ((x :: xs) ++ ids').
    rewrite take_app_le, drop_app_le by lia.
    rewrite IH; [done|]. rewrite length_drop. lia.
Qed.

(** X3. When no identifier occurs twice in the list, no identifier occurs
    in two chunks. *)
Theorem chunkLoop_disjoint ids i j chunk chunk' x :
  NoDup ids →
  chunkLoop ids [] !! i = Some chunk →
  chunkLoop ids [] !! j = Some chunk' →
  i ≠ j →
  x ∈ chunk → x ∉ chunk'.
Proof.
  intros Hnd Hi Hj Hij Hx Hx'. apply Hij.
  pose proof (lookup_lt_Some _ _ _ Hi) as Hilt.
  pose proof (lookup_lt_Some _ _ _ Hj) as Hjlt.
  rewrite chunkLoop_lookup in Hi, Hj by done.
  injection Hi as <-. injection Hj as <-.
  apply list_elem_of_lookup in Hx as [a Ha], Hx' as [b Hb].
  pose proof (lookup_lt_Some _ _ _ Ha) as Halt.
  pose proof (lookup_lt_Some _ _ _ Hb) as Hblt.
  rewrite length_take in Halt, Hblt.
  rewrite lookup_take_lt, lookup_drop in Ha, Hb by lia.
  pose proof (NoDup_lookup _ _ _ _ Hnd Ha Hb). lia.
Qed.
End ChunkShapes.

(** ** Sorting with equal keys *)

Section SortTies.
Context {A : Type} (comparefn : A → A → JsNumber) (key : A → option Z).
Hypothesis comparefn_key : ∀ a b, comparefn a b = js_sub (key a) (key b).
Implicit Types (x : A) (l : list A).

Lemma sortsAfter_keys x y :
  sortsAfter comparefn x y = true →
  ∃ p q : Z, key x = Some p ∧ key y = Some q ∧ (q < p)%Z.
Proof.
  unfold sortsAfter. rewrite comparefn_key.
  destruct (key x) as [p|], (key y) as [q|]; simpl; try discriminate.
  intros Hlt%Z.ltb_lt. exists p, q. repeat split. lia.
Qed.

Lemma keyLe_trans a b c : keyLe key a b → keyLe key b c → keyLe key a c.
Proof.
  intros (p & q & Ha & Hb & Hpq) (q' & r & Hb' & Hc & Hqr).
  exists p, r. repeat split; [done..|].
  rewrite Hb in Hb'. injection Hb' as <-. lia.
Qed.

Lemma sort_insert_le_sorted x l :
  is_Some (key x) → Forall (λ y, is_Some (key y)) l →
  StronglySorted (keyLe key) l →
  StronglySorted (keyLe key) (sort_insert comparefn x l).
Proof.
  intros [p Hp] Hl Hs. induction Hs as [|y l Hs IH Hy]; simpl.
  - repeat constructor.
  - apply Forall_cons in Hl as [[q Hq] Hl].
    destruct (sortsAfter comparefn x y) eqn:Hafter.
    + apply sortsAfter_keys in Hafter as (p' & q' & Hp' & Hq' & Hlt).
      constructor; [by apply IH|].
      rewrite sort_insert_perm. constructor; [|done].
      exists q', p'. repeat split; [done..|lia].
    + assert (keyLe key x y) as Hxy.
      { exists p, q. repeat split; [done..|].
        unfold sortsAfter in Hafter. rewrite comparefn_key, Hp, Hq in Hafter.
        simpl in Hafter. apply Z.ltb_ge in Hafter. lia. }
      constructor; [by constructor|]. constructor; [done|].
      eapply Forall_impl; [exact Hy|]. intros z. by apply keyLe_trans.
Qed.

Lemma array_sort_le_sorted l :
  Forall (λ y, is_Some (key y)) l →
  StronglySorted (keyLe key) (array_sort comparefn l).
Proof.
  induction l as [|x l IH]; simpl; intros Hl; [constructor|].
  fold (array_sort comparefn l). apply Forall_cons in Hl as [Hx Hl].
  apply sort_insert_le_sorted; [done| |by apply IH].
  by rewrite array_sort_perm.
Qed.

(** An element only moves past elements of another key. *)
Lemma sort_insert_withKey k x l :
  withKey key k (sort_insert comparefn x l) = withKey key k (x :: l).
Proof.
  unfold withKey. induction l as [|y l IH]; simpl; [done|].
  destruct (sortsAfter comparefn x y) eqn:Hafter; [|done].
  apply sortsAfter_keys in Hafter as (p & q & Hp & Hq & Hlt).
  simpl. rewrite IH. simpl.
  repeat case_bool_decide; try done.
  exfalso. assert (Some p = Some q) as [= ->] by congruence. lia.
Qed.

Lemma array_sort_withKey k l :
  withKey key k (array_sort comparefn l) = withKey key k l.
Proof.
  induction l as [|x l IH]; simpl; [done|].
  fold (array_sort comparefn l). rewrite sort_insert_withKey.
  unfold withKey in *. simpl. by rewrite IH.
Qed.

Lemma array_sort_sorted_id l :
  StronglySorted (keyLe key) l → array_sort comparefn l = l.
Proof.
  induction 1 as [|x l Hs IH Hx]; simpl; [done|].
  fold (array_sort comparefn l). rewrite IH.
  destruct l as [|y l]; simpl; [done|].
  apply Forall_cons in Hx as [(p & q & Hp & Hq & Hpq) _].
  unfold sortsAfter. rewrite comparefn_key, Hp, Hq. simpl.
  destruct (Z.ltb_spec 0 (p - q)); [lia|done].
Qed.

Lemma keyLt_sorted_unique l l' :
  StronglySorted (keyLt key) l → StronglySorted (keyLt key) l' →
  l ≡ₚ l' → l = l'.
Proof.
  intros Hs. revert l'. induction Hs as [|x l Hs IH Hx]; intros l' Hs' Hperm.
  - by apply Permutation_nil in Hperm.
  - destruct Hs' as [|y l' Hs' Hy].
    { symmetry in Hperm. by apply Permutation_nil in Hperm. }
    assert (x = y) as <-.
    { assert (x ∈ y :: l') as Hxin by (rewrite <- Hperm; left).
      assert (y ∈ x :: l) as Hyin by (rewrite Hperm; left).
      apply elem_of_cons in Hxin as [->|Hxin]; [done|].
      apply elem_of_cons in Hyin as [->|Hyin]; [done|].
      rewrite Forall_forall in Hx, Hy.
      destruct (Hx _ Hyin) as (p & q & Hp & Hq & Hlt).
      destruct (Hy _ Hxin) as (q' & p' & Hq' & Hp' & Hlt').
      exfalso. assert (Some p = Some p') as [= <-] by congruence.
      assert (Some q = Some q') as [= <-] by congruence. lia. }
    f_equal. apply IH; [done|]. by apply Permutation_cons_inv in Hperm.
Qed.
End SortTies.

(** ** Ordered circuit fetcher: ties, order of the store *)

Lemma bySequencePosition_key a b :
  bySequencePosition a b = js_sub (positionOf a) (positionOf b).
Proof. reflexivity. Qed.

Lemma mapped_positions_present docs :
  Forall (λ document, is_Some (sequencePosition (doc_data document))) docs →
  Forall (λ circuit, is_Some (positionOf circuit)) (fromQueryToFirebaseDocumentInfo docs).
Proof.
  intros Hall. unfold fromQueryToFirebaseDocumentInfo. rewrite Forall_map.
  eapply Forall_impl; [exact Hall|]. done.
Qed.

(** X4. When every circuit read carries a sequence position, equal ones
    allowed, the result of [getCeremonyCircuits] is in ascending order of
    position, and the circuits of one position are among themselves in the
    order of the read. *)
Theorem getCeremonyCircuits_ties db ceremonyId docs :
  getDocs_collection db (getCircuitsCollectionPath ceremonyId) = Fulfilled docs →
  Forall (λ document, is_Some (sequencePosition (doc_data document))) docs →
  ∃ circuits,
    outcome (getCeremonyCircuits db ceremonyId) = Fulfilled circuits
    ∧ StronglySorted (keyLe positionOf) circuits
    ∧ ∀ p : Z, withKey positionOf (Some p) circuits
               = withKey positionOf (Some p) (fromQueryToFirebaseDocumentInfo docs).
Proof.
  intros Hdocs Hall. eexists.
  rewrite (getCeremonyCircuits_fulfilled _ _ _ Hdocs). split; [reflexivity|].
  split.
  - apply (array_sort_le_sorted _ _ bySequencePosition_key).
    by apply mapped_positions_present.
  - intros p. apply (array_sort_withKey _ _ bySequencePosition_key).
Qed.

(** X5. When the circuits carry sequence positions that are all different,
    the result of [getCeremonyCircuits] does not depend on the order in which
    the store lists them: two reads of the same documents in two orders have
    the same result. *)
Theorem getCeremonyCircuits_store_order db db' ceremonyId ceremonyId' docs docs' :
  getDocs_collection db (getCircuitsCollectionPath ceremonyId) = Fulfilled docs →
  getDocs_collection db' (getCircuitsCollectionPath ceremonyId') = Fulfilled docs' →
  docs ≡ₚ docs' →
  Forall (λ document, is_Some (sequencePosition (doc_data document))) docs →
  NoDup (map (λ document, sequencePosition (doc_data document)) docs) →
  outcome (getCeremonyCircuits db ceremonyId)
  = outcome (getCeremonyCircuits db' ceremonyId').
Proof.
  intros Hdocs Hdocs' Hperm Hall Hnd.
  rewrite (getCeremonyCircuits_fulfilled _ _ _ Hdocs).
  rewrite (getCeremonyCircuits_fulfilled _ _ _ Hdocs'). unfold outcome. simpl.
  f_equal. apply (keyLt_sorted_unique positionOf).
  - apply (array_sort_sorted _ _ bySequencePosition_key).
    + by apply mapped_positions_present.
    + by rewrite fromQueryToFirebaseDocumentInfo_positions.
  - apply (array_sort_sorted _ _ bySequencePosition_key).
    + apply mapped_positions_present. by rewrite <- Hperm.
    + rewrite fromQueryToFirebaseDocumentInfo_positions. by rewrite <- Hperm.
  - rewrite !array_sort_perm. unfold fromQueryToFirebaseDocumentInfo.
    by apply Permutation_map.
Qed.

(** X6. When the store lists the circuits in ascending order of sequence
    position already (equal positions allowed), [getCeremonyCircuits] returns
    the mapped documents in the order of the read. *)
Theorem getCeremonyCircuits_already_sorted db ceremonyId docs :
  getDocs_collection db (getCircuitsCollectionPath ceremonyId) = Fulfilled docs →
  StronglySorted (keyLe (λ document, sequencePosition (doc_data document))) docs →
  outcome (getCeremonyCircuits db ceremonyId)
  = Fulfilled (fromQueryToFirebaseDocumentInfo docs).
Proof.
  intros Hdocs Hsorted.
  rewrite (getCeremonyCircuits_fulfilled _ _ _ Hdocs). unfold outcome. simpl.
  f_equal. apply (array_sort_sorted_id _ positionOf bySequencePosition_key).
  clear Hdocs. induction Hsorted as [|document docs Hs IH Hd]; simpl; constructor.
  - exact IH.
  - change (Forall (keyLe positionOf
                      {| info_id := doc_id document; info_ref := doc_ref document;
                         info_data := doc_data document |})
                   (fromQueryToFirebaseDocumentInfo docs)).
    unfold fromQueryToFirebaseDocumentInfo. rewrite Forall_map.
    eapply Forall_impl; [exact Hd|]. done.
Qed.

(** ** Collection paths *)

Lemma list_ascii_of_string_app (s t : string) :
  String.list_ascii_of_string (s +:+ t)
  = String.list_ascii_of_string s ++ String.list_ascii_of_string t.
Proof. induction s as [|c s IH]; simpl; [done|]. by rewrite IH. Qed.

Lemma list_ascii_of_string_inj (s t : string) :
  String.list_ascii_of_string s = String.list_ascii_of_string t → s = t.
Proof.
  intros Heq. rewrite <- (String.string_of_list_ascii_of_string s), Heq.
  apply String.string_of_list_ascii_of_string.
Qed.

(** Two lists that end differently are different. *)
Lemma app_rev_neq {A} (l l' s s' : list A) :
  (∀ r r', rev s ++ r ≠ rev s' ++ r') → l ++ s ≠ l' ++ s'.
Proof.
  intros Hneq Heq. apply (Hneq (rev l) (rev l')).
  by rewrite <- !rev_app_distr, Heq.
Qed.

Lemma getCeremonyCircuits_trace db ceremonyId :
  trace (getCeremonyCircuits db ceremonyId)
  = [GetDocsCollection (getCircuitsCollectionPath ceremonyId)].
Proof.
  unfold getCeremonyCircuits, await, getAllCollectionDocs, trace. simpl.
  by destruct (getDocs_collection db _).
Qed.

Lemma getContributions_trace db ceremonyId circuitId :
  trace (getContributions db ceremonyId circuitId)
  = [GetDocsCollection
       ("ceremonies/" +:+ ceremonyId +:+ "/circuits/" +:+ circuitId +:+ "/contributions")].
Proof.
  unfold getContributions, await, getAllCollectionDocs, trace. simpl.
  by destruct (getDocs_collection db _).
Qed.

(** X7. The circuits collections of two ceremonies are the same only for
    the same ceremony identifier. *)
Theorem getCircuitsCollectionPath_inj ceremonyId ceremonyId' :
  getCircuitsCollectionPath ceremonyId = getCircuitsCollectionPath ceremonyId'
  ↔ ceremonyId = ceremonyId'.
Proof.
  split; [|by intros ->]. unfold getCircuitsCollectionPath. intros Heq.
  apply (inj (String.app "ceremonies/")) in Heq.
  apply (f_equal String.list_ascii_of_string) in Heq.
  rewrite !list_ascii_of_string_app in Heq.
  apply app_inv_tail in Heq. by apply list_ascii_of_string_inj.
Qed.

(** X8. Whatever the identifiers, [getCeremonyCircuits] and
    [getContributions] do not read the same collection, and the circuits
    collection of a ceremony is not the participants collection of any. *)
Theorem circuits_path_apart db db' ceremonyId ceremonyId' circuitId :
  trace (getCeremonyCircuits db ceremonyId)
  ≠ trace (getContributions db' ceremonyId' circuitId)
  ∧ getCircuitsCollectionPath ceremonyId
    ≠ "ceremonies/" +:+ ceremonyId' +:+ "/participants".
Proof.
  rewrite getCeremonyCircuits_trace, getContributions_trace.
  unfold getCircuitsCollectionPath. split.
  - intros [= Heq%(f_equal String.list_ascii_of_string)]. revert Heq.
    rewrite !list_ascii_of_string_app.
    rewrite !app_assoc. apply app_rev_neq. intros r r'. discriminate.
  - intros Heq%(inj (String.app "ceremonies/"))%(f_equal String.list_ascii_of_string).
    revert Heq. rewrite !list_ascii_of_string_app.
    apply app_rev_neq. intros r r'. discriminate.
Qed.

(** The first occurrence of a separator cuts a list in one way only. *)
Lemma first_separator {A} (x : A) (l l' r r' : list A) :
  x ∉ l → x ∉ l' → l ++ x :: r = l' ++ x :: r' → l = l' ∧ r = r'.
Proof.
  revert l'. induction l as [|a l IH]; intros [|a' l'] Hl Hl' Heq; simpl in *.
  - by injection Heq as ->.
  - injection Heq as <- _. exfalso. apply Hl'. left.
  - injection Heq as -> _. exfalso. apply Hl. left.
  - injection Heq as <- Heq.
    apply not_elem_of_cons in Hl as [_ Hl], Hl' as [_ Hl'].
    destruct (IH l' Hl Hl' Heq) as [-> ->]. done.
Qed.

(** X9. For ceremony identifiers without a slash (the store allows none in
    an identifier), [getContributions] reads different collections for
    different pairs of ceremony and circuit. *)
Theorem getContributions_paths_apart db db' ceremonyId circuitId ceremonyId' circuitId' :
  "/"%char ∉ String.list_ascii_of_string ceremonyId →
  "/"%char ∉ String.list_ascii_of_string ceremonyId' →
  (ceremonyId, circuitId) ≠ (ceremonyId', circuitId') →
  trace (getContributions db ceremonyId circuitId)
  ≠ trace (getContributions db' ceremonyId' circuitId').
Proof.
  intros Hc Hc' Hneq. rewrite !getContributions_trace.
  intros [= Heq%(f_equal String.list_ascii_of_string)].
  apply Hneq. rewrite !list_ascii_of_string_app in Heq. simpl in Heq.
  apply first_separator in Heq as [Hceremony Hrest]; [|done..].
  injection Hrest as Hrest. apply app_inv_tail in Hrest.
  apply list_ascii_of_string_inj in Hceremony, Hrest. by subst.
Qed.

(** Without that condition two pairs can share a collection. *)
Example getContributions_slash_collision db :
  trace (getContributions db "a/circuits/b" "c")
  = trace (getContributions db "a" "b/circuits/c").
Proof. by rewrite !getContributions_trace. Qed.

(** ** Rejected reads *)

(** X10. A rejected read of the collection rejects [getCeremonyCircuits],
    [getContributions] and [getParticipantsAvatar] with the error of the
    store, the rejected read being the only request sent: in particular
    [getParticipantsAvatar] then sends no membership query. *)
Theorem rejected_read_surfaces db completion ceremonyId circuitId e :
  (getDocs_collection db (getCircuitsCollectionPath ceremonyId) = Rejected e →
   getCeremonyCircuits db ceremonyId
   = ([GetDocsCollection (getCircuitsCollectionPath ceremonyId)], Rejected e))
  ∧ (getDocs_collection db
       ("ceremonies/" +:+ ceremonyId +:+ "/circuits/" +:+ circuitId +:+ "/contributions")
     = Rejected e →
     getContributions db ceremonyId circuitId
     = ([GetDocsCollection
           ("ceremonies/" +:+ ceremonyId +:+ "/circuits/" +:+ circuitId +:+ "/contributions")],
        Rejected e))
  ∧ (getDocs_collection db ("ceremonies/" +:+ ceremonyId +:+ "/participants")
     = Rejected e →
     getParticipantsAvatar db completion ceremonyId
     = ([GetDocsCollection ("ceremonies/" +:+ ceremonyId +:+ "/participants")],
        Rejected e)).
Proof.
  repeat split; intros Hread.
  - unfold getCeremonyCircuits, await, getAllCollectionDocs. simpl. by rewrite Hread.
  - unfold getContributions, await, getAllCollectionDocs. simpl. by rewrite Hread.
  - unfold getParticipantsAvatar, getAllCollectionDocs.
    unfold await at 1. simpl. by rewrite Hread.
Qed.

(** ** Membership queries of the avatar aggregator *)

(** X11. Once the participants are read, the requests of
    [getParticipantsAvatar] are that read and one membership query on
    [avatars] per chunk, through [processItems]: [ceil(N/10)] queries, none
    with no value and none with more than ten, whose values, put end to
    end, are the participant identifiers in the order of the read. *)
Theorem getParticipantsAvatar_queries db completion ceremonyId docs :
  getDocs_collection db ("ceremonies/" +:+ ceremonyId +:+ "/participants")
  = Fulfilled docs →
  ∃ chunks,
    trace (getParticipantsAvatar db completion ceremonyId)
    = GetDocsCollection ("ceremonies/" +:+ ceremonyId +:+ "/participants")
        :: map (GetDocsWhereIn "avatars" "__name__") chunks
    ∧ length chunks = (length docs + 9) / 10
    ∧ Forall (λ chunk, 0 < length chunk ≤ 10) chunks
    ∧ concat chunks = map doc_id docs.
Proof.
  intros Hdocs. exists (chunkLoop (map doc_id docs) []).
  rewrite (getParticipantsAvatar_unfold _ _ _ _ Hdocs).
  split; [reflexivity|].
  split; [by rewrite chunkLoop_length, length_map|].
  split; [apply chunkLoop_sizes|apply chunkLoop_concat].
Qed.

(** ** View state *)

(** X12. When the read of the ceremonies is fulfilled, [fetchData] leaves a
    state with one project per ceremony document, in the order of the read,
    whatever projects the state held before: each holds the identifier and
    the payload of its document and no circuits, participants or
    contributions; [search] and [loading] are as they were. *)
Theorem fetchData_projects ceremoniesDocs st docs :
  outcome ceremoniesDocs = Fulfilled docs →
  ∃ st',
    outcome (fetchData ceremoniesDocs st) = Fulfilled st'
    ∧ length (projects st') = length docs
    ∧ (∀ i document, docs !! i = Some document →
         projects st' !! i
         = Some {| ceremony := {| uid := doc_id document;
                                  contribution_data := doc_data document |};
                   project_circuits := None;
                   project_participants := None;
                   project_contributions := None |})
    ∧ search st' = search st
    ∧ loading st' = loading st.
Proof.
  intros Hread. eexists. unfold fetchData, await, outcome in *. rewrite Hread. simpl.
  split; [reflexivity|]. unfold setProjects. cbn [projects search loading].
  split; [by rewrite !length_map|].
  split; [|done]. intros i document Hi.
  change (map ?f ?l) with (f <$> l). by rewrite !list_lookup_fmap, Hi.
Qed.

(** ** The further properties on the sample stores *)

Lemma chunkLoop_chunk_length_sample :
  length (seq 20 5) = 10 `min` (length (seq 0 25) - 10 * 2)
  ∧ 0 < length (seq 20 5)
  ∧ (3 < length (chunkLoop (seq 0 25) []) → length (seq 20 5) = 10).
Proof. apply (chunkLoop_chunk_length (seq 0 25) 2 (seq 20 5)). reflexivity. Defined.

Lemma chunkLoop_app_sample :
  chunkLoop (seq 0 20 ++ seq 20 5) []
  = chunkLoop (seq 0 20) [] ++ chunkLoop (seq 20 5) [].
Proof. apply (chunkLoop_app (seq 0 20) (seq 20 5) 2). reflexivity. Defined.

Lemma chunkLoop_disjoint_sample : 3 ∉ seq 20 5.
Proof.
  apply (chunkLoop_disjoint (seq 0 25) 0 2 (seq 0 10) (seq 20 5) 3).
  - by_computation.
  - reflexivity.
  - reflexivity.
  - discriminate.
  - by_computation.
Defined.

(** Positions 1, 0, 1: the two circuits at position 1 stay in the order of
    the read. *)
Lemma getCeremonyCircuits_ties_sample :
  ∃ circuits,
    outcome (getCeremonyCircuits
               (circuitsStore [circuitDoc "a" (Some 1%Z); circuitDoc "b" (Some 0%Z);
                               circuitDoc "c" (Some 1%Z)]) "c1")
    = Fulfilled circuits
    ∧ StronglySorted (keyLe positionOf) circuits
    ∧ ∀ p : Z, withKey positionOf (Some p) circuits
               = withKey positionOf (Some p)
                   (fromQueryToFirebaseDocumentInfo
                      [circuitDoc "a" (Some 1%Z); circuitDoc "b" (Some 0%Z);
                       circuitDoc "c" (Some 1%Z)]).
Proof.
  apply (getCeremonyCircuits_ties
           (circuitsStore [circuitDoc "a" (Some 1%Z); circuitDoc "b" (Some 0%Z);
                           circuitDoc "c" (Some 1%Z)]) "c1").
  - reflexivity.
  - repeat constructor; by eexists.
Defined.

Lemma getCeremonyCircuits_store_order_sample :
  outcome (getCeremonyCircuits
             (circuitsStore [circuitDoc "a" (Some 2%Z); circuitDoc "b" (Some 0%Z);
                             circuitDoc "c" (Some 1%Z)]) "c1")
  = outcome (getCeremonyCircuits
               (circuitsStore [circuitDoc "c" (Some 1%Z); circuitDoc "a" (Some 2%Z);
                               circuitDoc "b" (Some 0%Z)]) "c1").
Proof.
  apply (getCeremonyCircuits_store_order _ _ "c1" "c1"
           [circuitDoc "a" (Some 2%Z); circuitDoc "b" (Some 0%Z); circuitDoc "c" (Some 1%Z)]
           [circuitDoc "c" (Some 1%Z); circuitDoc "a" (Some 2%Z); circuitDoc "b" (Some 0%Z)]).
  - reflexivity.
  - reflexivity.
  - symmetry. apply (Permutation_cons_append [_; _]).
  - repeat constructor; by eexists.
  - by_computation.
Defined.

Lemma getCeremonyCircuits_already_sorted_sample :
  outcome (getCeremonyCircuits
             (circuitsStore [circuitDoc "b" (Some 0%Z); circuitDoc "c" (Some 1%Z);
                             circuitDoc "a" (Some 1%Z)]) "c1")
  = Fulfilled (fromQueryToFirebaseDocumentInfo
                 [circuitDoc "b" (Some 0%Z); circuitDoc "c" (Some 1%Z);
                  circuitDoc "a" (Some 1%Z)]).
Proof.
  apply (getCeremonyCircuits_already_sorted _ "c1").
  - reflexivity.
  - repeat first
      [ apply SSorted_nil | apply SSorted_cons | apply List.Forall_nil
      | apply List.Forall_cons;
        [eexists _, _; split; [reflexivity|split; [reflexivity|lia]]|] ].
Defined.

Lemma getContributions_paths_apart_sample :
  trace (getContributions contributionsStore "c1" "k1")
  ≠ trace (getContributions contributionsStore "c1" "k2").
Proof.
  apply getContributions_paths_apart.
  - by_computation.
  - by_computation.
  - discriminate.
Defined.

Lemma rejected_read_surfaces_sample :
  getCeremonyCircuits (offlineStore "offline") "c1"
  = ([GetDocsCollection "ceremonies/c1/circuits"], Rejected "offline")
  ∧ getContributions (offlineStore "offline") "c1" "k1"
    = ([GetDocsCollection "ceremonies/c1/circuits/k1/contributions"], Rejected "offline")
  ∧ getParticipantsAvatar (offlineStore "offline") [0] "c1"
    = ([GetDocsCollection "ceremonies/c1/participants"], Rejected "offline").
Proof.
  destruct (rejected_read_surfaces (offlineStore "offline") [0] "c1" "k1" "offline")
    as (Hcircuits & Hcontributions & Hparticipants).
  split; [by apply Hcircuits|]. split; [by apply Hcontributions|by apply Hparticipants].
Defined.

Lemma getParticipantsAvatar_queries_sample :
  ∃ chunks,
    trace (getParticipantsAvatar (avatarStore 25 withoutP3) [0; 1; 2] "c1")
    = GetDocsCollection "ceremonies/c1/participants"
        :: map (GetDocsWhereIn "avatars" "__name__") chunks
    ∧ length chunks = 3
    ∧ Forall (λ chunk, 0 < length chunk ≤ 10) chunks
    ∧ concat chunks = map doc_id (map participantDoc (seq 0 25)).
Proof.
  destruct (getParticipantsAvatar_queries (avatarStore 25 withoutP3) [0; 1; 2] "c1"
              (map participantDoc (seq 0 25)) eq_refl)
    as (chunks & Htrace & Hlen & Hsizes & Hconcat).
  exists chunks. split; [exact Htrace|]. split; [exact Hlen|]. by split.
Defined.

Lemma fetchData_projects_sample :
  ∃ st',
    outcome (fetchData ([GetDocsCollection "ceremonies"],
                        Fulfilled [circuitDoc "x" None; circuitDoc "y" None])
                       initialState)
    = Fulfilled st'
    ∧ length (projects st') = 2
    ∧ search st' = ""
    ∧ loading st' = false.
Proof.
  destruct (fetchData_projects
              ([GetDocsCollection "ceremonies"],
               Fulfilled [circuitDoc "x" None; circuitDoc "y" None])
              initialState [circuitDoc "x" None; circuitDoc "y" None] eq_refl)
    as (st' & Hrun & Hlen & _ & Hsearch & Hloading).
  exists st'. by repeat split.
Defined.
